(** * RecordIO (dmlc-core, include/dmlc/recordio.h)

    A shallow embedding of the binary record framing of dmlc-core:
    the header word packing of [RecordIOWriter] ([EncodeLRec],
    [DecodeFlag], [DecodeLength]), the constructors of [RecordIOWriter]
    and [RecordIOReader] with their width check, the exception counter,
    and the chunk protocol of [WriteRecord] / [ReadRecord].

    Conventions.
    - [unsigned] is a 32-bit machine integer: a [Z] in [0, 2^32) with the
      wrap-around of C++ written out by [u32].
    - A [Stream] is the sequence of bytes of the sequential byte stream
      the classes are bound to: the writer appends to it, the reader
      consumes it from the front.
    - Words are laid out in the stream least significant byte first (the
      native layout of the hosts the library is built for; the format
      has no byte-order negotiation). *)

From Stdlib Require Import String Ascii ZArith List Lia Bool.
From coqutil Require Import Byte Word.LittleEndianList.
Import ListNotations.
Local Open Scope Z_scope.

(** ** Machine integers and the byte stream *)

(** Wrap-around of [unsigned] arithmetic. *)
Definition u32 (z : Z) : Z := z mod 2 ^ 32.

(** The predicate "is a value of type [unsigned]". *)
Definition is_u32 (z : Z) : Prop := 0 <= z < 2 ^ 32.

Definition Stream : Type := list byte.

(** [stream->Write(&w, 4)] for a word [w]: its four bytes. *)
Definition word_bytes (w : Z) : list byte := le_split 4 w.

(** The word held by four bytes obtained from [stream->Read(&w, 4)]. *)
Definition bytes_word (bs : list byte) : Z := le_combine bs.

(** [stream->Read(ptr, n)]: at most [n] bytes from the front of the
    stream, and the stream that is left. *)
Definition Read (n : nat) (s : Stream) : list byte * Stream :=
  (firstn n s, skipn n s).

(** Outcome of an operation guarded by a precondition check: a failed
    [CHECK] is fatal and carries the logged message. *)
Inductive result (A : Type) : Type :=
| Ok (a : A)
| PreconditionViolation (msg : string).
Arguments Ok {A} a.
Arguments PreconditionViolation {A} msg.

(** Modelled from the spec: the [CHECK] macro, which recordio.h takes
    from logging.h and does not define. The width precondition "must be
    rejected at construction time": a false condition aborts with the
    message. *)
Definition CHECK {A : Type} (cond : bool) (msg : string) (k : result A)
  : result A :=
  if cond then k else PreconditionViolation msg.

(** Modelled from the spec: the continuation flag of a chunk, "an explicit
    enumerated tag consumed by both writer and reader"; the header only
    names the four values in its comment ([cflag == 0] complete record,
    [1] start, [2] middle, [3] end of a multiple-rec). *)
Inductive CFlag : Type := COMPLETE | START | MIDDLE | END.

Definition cflag_code (c : CFlag) : Z :=
  match c with
  | COMPLETE => 0
  | START => 1
  | MIDDLE => 2
  | END => 3
  end.

(** Modelled from the spec: the number of zero bytes after a payload of
    [length] bytes, [(4 - length mod 4) mod 4]. *)
Definition pad_len (length : Z) : Z := (4 - length mod 4) mod 4.

(** ** class RecordIOWriter *)

Module RecordIOWriter.

(** [static const unsigned kMagic = 0x3ed7230a;] *)
Definition kMagic : Z := 0x3ed7230a.

(** [return (cflag << 30U) | length;] *)
Definition EncodeLRec (cflag length : Z) : Z :=
  Z.lor (u32 (Z.shiftl cflag 30)) length.

(** [return (rec >> 30U) & 3U;] *)
Definition DecodeFlag (rec : Z) : Z :=
  Z.land (Z.shiftr rec 30) 3.

(** [return rec & ((1U << 30U) - 1U);] *)
Definition DecodeLength (rec : Z) : Z :=
  Z.land rec (u32 (u32 (Z.shiftl 1 30) - 1)).

(** The private members [stream_] and [except_counter_]. *)
Record t : Type := mk {
  stream_ : Stream;
  except_counter_ : Z
}.

(** The member initialisers [stream_(stream), except_counter_(0)]. *)
Definition init (stream : Stream) : t :=
  {| stream_ := stream; except_counter_ := 0 |}.

(** The constructor, on a platform where [sizeof(unsigned)] is
    [sizeof_unsigned]:
    [CHECK(sizeof(unsigned) == 4) << "unsigned needs to be 4 bytes";] *)
Definition new (sizeof_unsigned : Z) (stream : Stream) : result t :=
  CHECK (sizeof_unsigned =? 4) "unsigned needs to be 4 bytes"
        (Ok (init stream)).

(** [unsigned except_counter(void) const { return except_counter_; }]
    as a state transformer: the value returned and the writer after
    the call. *)
Definition except_counter (w : t) : Z * t := (except_counter_ w, w).

(** The four bytes of the magic number as they lie in the stream. *)
Definition magic : list byte := word_bytes kMagic.

(** Does the magic sequence occur at the front of [buf]? *)
Definition at_magic (buf : list byte) : bool :=
  if list_eq_dec Byte.byte_eq_dec (firstn 4 buf) magic then true else false.

(** Does the magic sequence occur somewhere in [buf]? *)
Fixpoint has_magic (buf : list byte) : bool :=
  match buf with
  | [] => false
  | x :: rest => at_magic (x :: rest) || has_magic rest
  end.

(** The number of occurrences of the magic sequence in [buf]. *)
Fixpoint count_magic (buf : list byte) : nat :=
  match buf with
  | [] => 0
  | x :: rest =>
      ((if at_magic (x :: rest) then 1 else 0) + count_magic rest)%nat
  end.

(** Modelled from the spec: step 1 of the writer's algorithm, recordio.h
    declaring [WriteRecord] without its body. The payload
    is partitioned into N >= 1 segments, one cut per occurrence of the
    magic sequence, the cut falling inside the occurrence ("an
    occurrence itself becomes part of a segment boundary"), so that the
    segments concatenate to the payload and none of them holds the
    magic sequence. The spec leaves the place of the cut inside the
    occurrence to the implementer; here it is after the first byte. *)
Fixpoint segments (buf : list byte) : list (list byte) :=
  match buf with
  | [] => [[]]
  | x :: rest =>
      if at_magic (x :: rest) then [x] :: segments rest
      else match segments rest with
           | seg :: segs => (x :: seg) :: segs
           | [] => [[x]]
           end
  end.

(** Modelled from the spec: steps 2 and 3, the flag of each segment.
    One segment is COMPLETE; of several, the first is START, the last
    END and the others MIDDLE. *)
Fixpoint flag_rest (segs : list (list byte)) : list (CFlag * list byte) :=
  match segs with
  | [] => []
  | [seg] => [(END, seg)]
  | seg :: rest => (MIDDLE, seg) :: flag_rest rest
  end.

Definition flag_segments (segs : list (list byte))
  : list (CFlag * list byte) :=
  match segs with
  | [] => []
  | [seg] => [(COMPLETE, seg)]
  | seg :: rest => (START, seg) :: flag_rest rest
  end.

(** Modelled from the spec: step 4, the bytes of one chunk: magic,
    packed header [(cflag << 30) | length], the segment, zero pad. *)
Definition chunk (fs : CFlag * list byte) : list byte :=
  let (cflag, seg) := fs in
  let len := Z.of_nat (length seg) in
  magic
    ++ word_bytes (EncodeLRec (cflag_code cflag) len)
    ++ seg
    ++ repeat Byte.x00 (Z.to_nat (pad_len len)).

Definition emit (segs : list (list byte)) : list byte :=
  flat_map chunk (flag_segments segs).

(** A length that fits the 30 bits of the header. *)
Definition short (seg : list byte) : Prop :=
  Z.of_nat (length seg) < 2 ^ 30.

(** Modelled from the spec: [WriteRecord(buf, size)], which recordio.h
    declares without its body. A payload of 2^30 bytes or more is
    rejected at call time; otherwise the chunks of the payload are
    appended to the stream and the exception counter (an [unsigned])
    goes up by one per occurrence of the magic sequence, that is per
    cut. The stream of the model never fails to write. *)
Definition WriteRecord (w : t) (buf : list byte) : result t :=
  CHECK (Z.of_nat (length buf) <? 2 ^ 30)
        "RecordIO only accepts records of less than 2^30 bytes"
        (let segs := segments buf in
         Ok {| stream_ := stream_ w ++ emit segs;
               except_counter_ :=
                 u32 (except_counter_ w + Z.of_nat (length segs - 1)) |}).

(** A sequence of [WriteRecord] calls on one writer; a rejected call
    leaves the writer as it was. *)
Definition WriteRecords (w : t) (bufs : list (list byte)) : t :=
  fold_left
    (fun w buf =>
       match WriteRecord w buf with
       | Ok w' => w'
       | PreconditionViolation _ => w
       end)
    bufs w.

(** [inline void WriteRecord(const std::string &data)
      { this->WriteRecord(data.c_str(), data.length()); }]:
    the overload hands over the [data.length()] bytes of the string,
    zero bytes among them. *)
Definition WriteRecordString (w : t) (data : string) : result t :=
  WriteRecord w (list_byte_of_string data).

End RecordIOWriter.

(** ** class RecordIOReader *)

Module RecordIOReader.

Import RecordIOWriter(kMagic, magic, DecodeFlag, DecodeLength).

(** The private members [stream_] and [end_of_stream_]. *)
Record t : Type := mk {
  stream_ : Stream;
  end_of_stream_ : bool
}.

(** The member initialisers [stream_(stream), end_of_stream_(false)]. *)
Definition init (stream : Stream) : t :=
  {| stream_ := stream; end_of_stream_ := false |}.

(** The constructor, with the same width check as the writer's. *)
Definition new (sizeof_unsigned : Z) (stream : Stream) : result t :=
  CHECK (sizeof_unsigned =? 4) "unsigned needs to be 4 bytes"
        (Ok (init stream)).

(** Modelled from the spec: the typed result of [ReadRecord]:
    [Found out_rec] is [found = true] with the record, [EndOfStream]
    is [found = false], [CorruptFraming] is the hard failure of a
    malformed stream. *)
Inductive ReadResult : Type :=
| Found (out_rec : list byte)
| EndOfStream
| CorruptFraming.

(** Modelled from the spec: the six steps of the reader's algorithm,
    recordio.h declaring [ReadRecord] without its body.
    [acc] is the accumulation buffer of the call; every turn of the
    loop consumes at least the eight bytes of magic and header, and
    [fuel] bounds the number of turns ([None] when it runs out). *)
Fixpoint ReadLoop (fuel : nat) (s : Stream) (acc : list byte)
  : option (ReadResult * Stream) :=
  match fuel with
  | O => None
  | S fuel' =>
      (* 1. read 4 bytes for magic; nothing read: end of stream *)
      let (mg, s1) := Read 4 s in
      match mg with
      | [] => Some (EndOfStream, s1)
      | _ :: _ =>
          (* 2. the 4 bytes must be the magic constant *)
          if list_eq_dec Byte.byte_eq_dec mg magic then
            (* 3. read the header word, unpack flag and length *)
            let (hd, s2) := Read 4 s1 in
            if (length hd =? 4)%nat then
              let rec := bytes_word hd in
              let cflag := DecodeFlag rec in
              let len := DecodeLength rec in
              (* 4. read the payload, skip the pad *)
              let (payload, s3) := Read (Z.to_nat len) s2 in
              if (length payload =? Z.to_nat len)%nat then
                let (pad, s4) := Read (Z.to_nat (pad_len len)) s3 in
                if (length pad =? Z.to_nat (pad_len len))%nat then
                  (* 5. append the payload *)
                  let acc' := acc ++ payload in
                  (* 6. COMPLETE or END: done; START or MIDDLE: loop *)
                  if (cflag =? cflag_code COMPLETE)
                     || (cflag =? cflag_code END)
                  then Some (Found acc', s4)
                  else ReadLoop fuel' s4 acc'
                else Some (CorruptFraming, s4)
              else Some (CorruptFraming, s3)
            else Some (CorruptFraming, s2)
          else Some (CorruptFraming, s1)
      end
  end.

(** [bool ReadRecord(std::string *out_rec)]: the result of the call and
    the reader after it. Reaching the end of the stream sets the
    [end_of_stream_] latch. The fuel handed to the loop always
    suffices (lemma [ReadLoop_total]). *)
Definition ReadRecord (r : t) : ReadResult * t :=
  match ReadLoop (S (length (stream_ r))) (stream_ r) [] with
  | Some (EndOfStream, s) =>
      (EndOfStream, {| stream_ := s; end_of_stream_ := true |})
  | Some (res, s) =>
      (res, {| stream_ := s; end_of_stream_ := end_of_stream_ r |})
  | None => (CorruptFraming, r)
  end.

(** The boolean returned by [ReadRecord] when it returns. *)
Definition found (res : ReadResult) : option bool :=
  match res with
  | Found _ => Some true
  | EndOfStream => Some false
  | CorruptFraming => None
  end.

(** A whole chunk as it lies in the stream, with header word [rec]. *)
Definition wire_chunk (rec : Z) (payload pad : list byte) : Stream :=
  magic ++ word_bytes rec ++ payload ++ pad.

(** The payload and the pad have the sizes the header declares. *)
Definition well_sized (rec : Z) (payload pad : list byte) : Prop :=
  is_u32 rec
  /\ Z.of_nat (length payload) = DecodeLength rec
  /\ Z.of_nat (length pad) = pad_len (DecodeLength rec).

(** The stream holds whole chunks only, each of them START or MIDDLE:
    it ends at a chunk boundary, possibly inside a split record. *)
Inductive open_run : Stream -> Prop :=
| open_run_nil : open_run []
| open_run_chunk (rec : Z) (payload pad : list byte) (rest : Stream) :
    well_sized rec payload pad ->
    DecodeFlag rec = cflag_code START
    \/ DecodeFlag rec = cflag_code MIDDLE ->
    open_run rest ->
    open_run (wire_chunk rec payload pad ++ rest).

(** [n] calls of [ReadRecord] in a row on one reader: the results in
    the order of the calls, and the reader after the last of them. *)
Fixpoint ReadRecords (n : nat) (r : t) : list ReadResult * t :=
  match n with
  | O => ([], r)
  | S n' =>
      let (res, r') := ReadRecord r in
      let (ress, r'') := ReadRecords n' r' in
      (res :: ress, r'')
  end.

End RecordIOReader.

(** * Header packing *)

Section HeaderPacking.

Import RecordIOWriter.

Lemma length_mask : u32 (u32 (Z.shiftl 1 30) - 1) = Z.ones 30.
Proof. reflexivity. Qed.

Lemma flag_mask : 3 = Z.ones 2.
Proof. reflexivity. Qed.

Lemma DecodeFlag_bits (rec : Z) :
  DecodeFlag rec = (rec / 2 ^ 30) mod 4.
Proof.
  unfold DecodeFlag.
  rewrite flag_mask, Z.land_ones, Z.shiftr_div_pow2 by lia.
  reflexivity.
Qed.

Lemma DecodeLength_bits (rec : Z) :
  DecodeLength rec = rec mod 2 ^ 30.
Proof.
  unfold DecodeLength.
  rewrite length_mask, Z.land_ones by lia.
  reflexivity.
Qed.

Lemma bits_above_30 (length i : Z) :
  0 <= length < 2 ^ 30 -> 30 <= i -> Z.testbit length i = false.
Proof.
  intros Hl Hi.
  rewrite <- (Z.mod_small length (2 ^ 30)) by lia.
  apply Z.mod_pow2_bits_high. lia.
Qed.

Lemma flag_length_disjoint (cflag length : Z) :
  0 <= length < 2 ^ 30 -> Z.land (Z.shiftl cflag 30) length = 0.
Proof.
  intros Hl. apply Z.bits_inj'. intros i Hi.
  rewrite Z.land_spec, Z.bits_0.
  destruct (Z.ltb_spec i 30).
  - rewrite Z.shiftl_spec_low by lia. reflexivity.
  - rewrite (bits_above_30 length i) by lia. apply andb_false_r.
Qed.

Lemma EncodeLRec_sum (cflag length : Z) :
  0 <= cflag < 4 -> 0 <= length < 2 ^ 30 ->
  EncodeLRec cflag length = cflag * 2 ^ 30 + length.
Proof.
  intros Hc Hl. unfold EncodeLRec, u32.
  rewrite Z.shiftl_mul_pow2 by lia.
  rewrite Z.mod_small by lia.
  rewrite <- Z.shiftl_mul_pow2 by lia.
  rewrite <- Z.lxor_lor by (apply flag_length_disjoint; lia).
  rewrite <- Z.add_nocarry_lxor by (apply flag_length_disjoint; lia).
  reflexivity.
Qed.

Lemma DecodeFlag_range (rec : Z) : 0 <= DecodeFlag rec < 4.
Proof. rewrite DecodeFlag_bits. apply Z.mod_pos_bound. lia. Qed.

Lemma DecodeLength_range (rec : Z) : 0 <= DecodeLength rec < 2 ^ 30.
Proof. rewrite DecodeLength_bits. apply Z.mod_pos_bound. lia. Qed.

Lemma EncodeLRec_u32 (cflag length : Z) :
  0 <= cflag < 4 -> 0 <= length < 2 ^ 30 ->
  is_u32 (EncodeLRec cflag length).
Proof.
  intros Hc Hl. rewrite EncodeLRec_sum by assumption.
  unfold is_u32. lia.
Qed.

Lemma DecodeFlag_EncodeLRec (cflag length : Z) :
  0 <= cflag < 4 -> 0 <= length < 2 ^ 30 ->
  DecodeFlag (EncodeLRec cflag length) = cflag.
Proof.
  intros Hc Hl. rewrite DecodeFlag_bits, EncodeLRec_sum by assumption.
  rewrite Z.div_add_l, Z.div_small by lia.
  rewrite Z.add_0_r. apply Z.mod_small. lia.
Qed.

Lemma DecodeLength_EncodeLRec (cflag length : Z) :
  0 <= cflag < 4 -> 0 <= length < 2 ^ 30 ->
  DecodeLength (EncodeLRec cflag length) = length.
Proof.
  intros Hc Hl. rewrite DecodeLength_bits, EncodeLRec_sum by assumption.
  rewrite Z.add_comm, Z.mod_add by lia. apply Z.mod_small. lia.
Qed.

Lemma EncodeLRec_Decode (rec : Z) :
  is_u32 rec -> EncodeLRec (DecodeFlag rec) (DecodeLength rec) = rec.
Proof.
  unfold is_u32. intros Hr.
  rewrite EncodeLRec_sum
    by (apply DecodeFlag_range || apply DecodeLength_range).
  rewrite DecodeFlag_bits, DecodeLength_bits.
  rewrite Z.mod_small.
  - rewrite Z.mul_comm. symmetry. apply Z.div_mod. lia.
  - split; [apply Z.div_pos; lia|].
    apply Z.div_lt_upper_bound; lia.
Qed.

(** [EncodeLRec] has no guard of its own: a length of 2^30 lands in the
    flag bits. *)
Lemma EncodeLRec_unguarded :
  EncodeLRec (cflag_code COMPLETE) (2 ^ 30)
  = EncodeLRec (cflag_code START) 0
  /\ DecodeFlag (EncodeLRec (cflag_code COMPLETE) (2 ^ 30))
     = cflag_code START
  /\ DecodeLength (EncodeLRec (cflag_code COMPLETE) (2 ^ 30)) = 0.
Proof. repeat split. Qed.

End HeaderPacking.

(** C2. Header-packing round trip: for a flag in {0,1,2,3} and a length
    below 2^30, [EncodeLRec] yields a 32-bit word holding the flag in its
    top 2 bits and the length in its bottom 30 bits, from which
    [DecodeFlag] and [DecodeLength] give back the flag and the length. *)
Theorem EncodeLRec_decode (cflag length : Z) :
  0 <= cflag < 4 -> 0 <= length < 2 ^ 30 ->
  is_u32 (RecordIOWriter.EncodeLRec cflag length)
  /\ RecordIOWriter.EncodeLRec cflag length = cflag * 2 ^ 30 + length
  /\ RecordIOWriter.DecodeFlag (RecordIOWriter.EncodeLRec cflag length)
     = cflag
  /\ RecordIOWriter.DecodeLength (RecordIOWriter.EncodeLRec cflag length)
     = length.
Proof.
  intros Hc Hl.
  split; [apply EncodeLRec_u32; assumption|].
  split; [apply EncodeLRec_sum; assumption|].
  split; [apply DecodeFlag_EncodeLRec | apply DecodeLength_EncodeLRec];
    assumption.
Qed.

Lemma EncodeLRec_decode_witness :
  RecordIOWriter.DecodeFlag (RecordIOWriter.EncodeLRec 3 1073741823) = 3
  /\ RecordIOWriter.DecodeLength (RecordIOWriter.EncodeLRec 3 1073741823)
     = 1073741823.
Proof.
  pose proof (EncodeLRec_decode 3 1073741823 ltac:(lia) ltac:(lia))
    as (_ & _ & Hf & Hl).
  split; [exact Hf | exact Hl].
Defined.

(** C8. Reverse round trip: every 32-bit word is the packing of its own
    flag and length, so two header words with the same flag and the same
    length are the same word. *)
Theorem decode_EncodeLRec (rec : Z) :
  is_u32 rec ->
  RecordIOWriter.EncodeLRec (RecordIOWriter.DecodeFlag rec)
                            (RecordIOWriter.DecodeLength rec) = rec
  /\ (forall rec' : Z,
         is_u32 rec' ->
         RecordIOWriter.DecodeFlag rec' = RecordIOWriter.DecodeFlag rec ->
         RecordIOWriter.DecodeLength rec' = RecordIOWriter.DecodeLength rec ->
         rec' = rec).
Proof.
  intros Hrec.
  split; [apply EncodeLRec_Decode; exact Hrec|].
  intros rec' Hrec' Hf Hl.
  rewrite <- (EncodeLRec_Decode rec Hrec), <- (EncodeLRec_Decode rec' Hrec').
  rewrite Hf, Hl. reflexivity.
Qed.

Lemma decode_EncodeLRec_witness :
  RecordIOWriter.EncodeLRec (RecordIOWriter.DecodeFlag 0xdeadbeef)
                            (RecordIOWriter.DecodeLength 0xdeadbeef)
  = 0xdeadbeef.
Proof.
  assert (H : is_u32 0xdeadbeef) by (unfold is_u32; lia).
  exact (proj1 (decode_EncodeLRec 0xdeadbeef H)).
Defined.

(** C9. The decoders are total functions whose results are in range on
    every word, packed by [EncodeLRec] or not: the flag is below 4 and
    the length below 2^30. *)
Theorem Decode_range (rec : Z) :
  0 <= RecordIOWriter.DecodeFlag rec < 4
  /\ 0 <= RecordIOWriter.DecodeLength rec < 2 ^ 30.
Proof.
  split; [apply DecodeFlag_range | apply DecodeLength_range].
Qed.

(** * Constructors and the exception counter *)

Lemma Writer_new_4 (stream : Stream) :
  RecordIOWriter.new 4 stream = Ok (RecordIOWriter.init stream).
Proof. reflexivity. Qed.

Lemma Reader_new_4 (stream : Stream) :
  RecordIOReader.new 4 stream = Ok (RecordIOReader.init stream).
Proof. reflexivity. Qed.



(** C10. A writer that has just been constructed reports an exception
    counter of 0, and reading the counter leaves any writer as it is. *)
Theorem except_counter_fresh
        (sizeof_unsigned : Z) (stream : Stream) (w : RecordIOWriter.t) :
  RecordIOWriter.new sizeof_unsigned stream = Ok w ->
  fst (RecordIOWriter.except_counter w) = 0
  /\ (forall w' : RecordIOWriter.t,
         snd (RecordIOWriter.except_counter w') = w').
Proof.
  unfold RecordIOWriter.new, CHECK.
  destruct (sizeof_unsigned =? 4); intros Hnew; [|discriminate].
  injection Hnew as <-.
  split; [reflexivity|]. intros w'. reflexivity.
Qed.

Lemma except_counter_fresh_witness :
  fst (RecordIOWriter.except_counter (RecordIOWriter.init [Byte.x2a])) = 0.
Proof.
  apply (except_counter_fresh 4 [Byte.x2a] (RecordIOWriter.init [Byte.x2a])).
  reflexivity.
Defined.

(** * The byte stream *)

Section Wire.

Import RecordIOWriter RecordIOReader.

Lemma Read_app (n : nat) (a : list byte) (s : Stream) :
  length a = n -> Read n (a ++ s) = (a, s).
Proof.
  intros <-. unfold Read.
  rewrite firstn_app, Nat.sub_diag, firstn_all, firstn_O, app_nil_r.
  rewrite skipn_app, Nat.sub_diag, skipn_all, skipn_O.
  reflexivity.
Qed.

Lemma Read_short (n : nat) (s : Stream) :
  (length s < n)%nat -> Read n s = (s, []).
Proof.
  intros Hlt. unfold Read.
  rewrite firstn_all2, skipn_all2 by lia. reflexivity.
Qed.

Lemma length_word_bytes (w : Z) : length (word_bytes w) = 4%nat.
Proof. apply length_le_split. Qed.

Lemma length_magic : length magic = 4%nat.
Proof. apply length_word_bytes. Qed.

Lemma bytes_word_bytes (w : Z) :
  is_u32 w -> bytes_word (word_bytes w) = w.
Proof.
  intros Hw. unfold bytes_word, word_bytes.
  rewrite le_combine_split. apply Z.mod_small. exact Hw.
Qed.

Lemma word_bytes_word (bs : list byte) :
  length bs = 4%nat -> word_bytes (bytes_word bs) = bs.
Proof.
  intros Hlen. unfold bytes_word, word_bytes.
  rewrite <- Hlen. apply split_le_combine.
Qed.

Lemma bytes_word_u32 (bs : list byte) :
  length bs = 4%nat -> is_u32 (bytes_word bs).
Proof.
  intros Hlen. unfold is_u32, bytes_word.
  pose proof (le_combine_bound bs) as Hb.
  rewrite Hlen in Hb. exact Hb.
Qed.

Lemma pad_len_range (n : Z) : 0 <= pad_len n < 4.
Proof. unfold pad_len. apply Z.mod_pos_bound. lia. Qed.

Lemma pad_len_aligns (n : Z) : (n + pad_len n) mod 4 = 0.
Proof.
  unfold pad_len.
  rewrite Zplus_mod_idemp_r.
  replace (n + (4 - n mod 4)) with (n - n mod 4 + 1 * 4) by lia.
  rewrite Z.mod_add by lia.
  rewrite Zminus_mod_idemp_r, Z.sub_diag. reflexivity.
Qed.

End Wire.

(** * The reader's loop *)

Section ReaderLoop.

Import RecordIOWriter RecordIOReader.

Lemma magic_bytes : magic = [Byte.x0a; Byte.x23; Byte.xd7; Byte.x3e].
Proof. reflexivity. Qed.

(** One turn of the loop over a whole chunk at the front of the
    stream. *)
Lemma ReadLoop_chunk (fuel : nat) (rec : Z) (payload pad : list byte)
      (rest : Stream) (acc : list byte) :
  well_sized rec payload pad ->
  ReadLoop (S fuel) (wire_chunk rec payload pad ++ rest) acc
  = if (DecodeFlag rec =? cflag_code COMPLETE)
       || (DecodeFlag rec =? cflag_code END)
    then Some (Found (acc ++ payload), rest)
    else ReadLoop fuel rest (acc ++ payload).
Proof.
  intros (Hu & Hp & Hd).
  unfold wire_chunk. rewrite <- !app_assoc.
  cbn [ReadLoop].
  rewrite (Read_app 4 magic) by apply length_magic.
  cbv beta iota zeta.
  destruct magic as [|m0 ms] eqn:Hm;
    [rewrite magic_bytes in Hm; discriminate|].
  destruct (list_eq_dec Byte.byte_eq_dec _ _) as [_|Hne];
    [|exfalso; apply Hne; reflexivity].
  rewrite (Read_app 4 (word_bytes rec)) by apply length_word_bytes.
  rewrite length_word_bytes, Nat.eqb_refl.
  rewrite bytes_word_bytes by assumption.
  replace (Z.to_nat (DecodeLength rec)) with (length payload) by lia.
  rewrite (Read_app (length payload) payload) by reflexivity.
  rewrite Nat.eqb_refl.
  replace (Z.to_nat (pad_len (DecodeLength rec))) with (length pad) by lia.
  rewrite (Read_app (length pad) pad) by reflexivity.
  rewrite Nat.eqb_refl.
  reflexivity.
Qed.

(** More fuel does not change a result. *)
Lemma ReadLoop_fuel_mono (fuel fuel' : nat) (s : Stream) (acc : list byte)
      (out : ReadResult * Stream) :
  ReadLoop fuel s acc = Some out -> (fuel <= fuel')%nat ->
  ReadLoop fuel' s acc = Some out.
Proof.
  revert fuel' s acc.
  induction fuel as [|fuel IH]; intros fuel' s acc Hrun Hle;
    [discriminate|].
  destruct fuel' as [|fuel']; [lia|].
  cbn [ReadLoop] in Hrun |- *.
  destruct (Read 4 s) as [mg s1].
  destruct mg as [|m0 mg]; [assumption|].
  destruct (list_eq_dec Byte.byte_eq_dec _ _); [|assumption].
  destruct (Read 4 s1) as [hd s2].
  destruct (length hd =? 4)%nat; [|assumption].
  destruct (Read _ s2) as [payload s3].
  destruct (length payload =? _)%nat; [|assumption].
  destruct (Read _ s3) as [pad s4].
  destruct (length pad =? _)%nat; [|assumption].
  destruct (_ || _); [assumption|].
  apply IH; [assumption|lia].
Qed.

(** The loop comes to a result on every stream shorter than its
    fuel. *)
Lemma ReadLoop_total (fuel : nat) (s : Stream) (acc : list byte) :
  (length s < fuel)%nat -> exists out, ReadLoop fuel s acc = Some out.
Proof.
  revert s acc.
  induction fuel as [|fuel IH]; intros s acc Hlt; [lia|].
  cbn [ReadLoop]. unfold Read.
  destruct (firstn 4 s) as [|m0 mg] eqn:Hmg; [eauto|].
  destruct (list_eq_dec Byte.byte_eq_dec _ _); [|eauto].
  destruct (length (firstn 4 (skipn 4 s)) =? 4)%nat; [|eauto].
  destruct (length (firstn _ (skipn 4 (skipn 4 s))) =? _)%nat; [|eauto].
  destruct (length (firstn _ (skipn _ (skipn 4 (skipn 4 s)))) =? _)%nat;
    [|eauto].
  destruct (_ || _); [eauto|].
  apply IH.
  rewrite !length_skipn.
  assert (length s <> 0)%nat by (destruct s; [discriminate|simpl; lia]).
  lia.
Qed.

End ReaderLoop.

Section ReaderCall.

Import RecordIOWriter RecordIOReader.

(** A result of the loop at any fuel is the result at the fuel
    [ReadRecord] hands to it. *)
Lemma ReadLoop_enough (fuel : nat) (s : Stream) (acc : list byte)
      (out : ReadResult * Stream) :
  ReadLoop fuel s acc = Some out ->
  ReadLoop (S (length s)) s acc = Some out.
Proof.
  intros Hrun.
  destruct (ReadLoop_total (S (length s)) s acc) as [out' Hout']; [lia|].
  pose proof (ReadLoop_fuel_mono _ (Nat.max fuel (S (length s))) _ _ _
                Hrun (Nat.le_max_l _ _)) as H1.
  pose proof (ReadLoop_fuel_mono _ (Nat.max fuel (S (length s))) _ _ _
                Hout' (Nat.le_max_r _ _)) as H2.
  congruence.
Qed.

Lemma ReadRecord_Found (fuel : nat) (r : RecordIOReader.t)
      (out_rec : list byte) (s' : Stream) :
  ReadLoop fuel (stream_ r) [] = Some (Found out_rec, s') ->
  ReadRecord r
  = (Found out_rec, {| stream_ := s'; end_of_stream_ := end_of_stream_ r |}).
Proof.
  intros Hrun. unfold ReadRecord.
  rewrite (ReadLoop_enough _ _ _ _ Hrun). reflexivity.
Qed.

Lemma ReadRecord_EndOfStream (fuel : nat) (r : RecordIOReader.t)
      (s' : Stream) :
  ReadLoop fuel (stream_ r) [] = Some (EndOfStream, s') ->
  ReadRecord r
  = (EndOfStream, {| stream_ := s'; end_of_stream_ := true |}).
Proof.
  intros Hrun. unfold ReadRecord.
  rewrite (ReadLoop_enough _ _ _ _ Hrun). reflexivity.
Qed.

(** What [ReadRecord] returns is what the loop returns. *)
Lemma ReadRecord_loop (r : RecordIOReader.t) :
  exists s', ReadLoop (S (length (stream_ r))) (stream_ r) []
             = Some (fst (ReadRecord r), s').
Proof.
  unfold ReadRecord.
  destruct (ReadLoop_total (S (length (stream_ r))) (stream_ r) [])
    as [[res s'] Hout]; [lia|].
  rewrite Hout. exists s'. destruct res; reflexivity.
Qed.

End ReaderCall.

(** * The writer's chunks *)

Section WriterChunks.

Import RecordIOWriter RecordIOReader.

Lemma chunk_wire (cflag : CFlag) (seg : list byte) :
  chunk (cflag, seg)
  = wire_chunk (EncodeLRec (cflag_code cflag) (Z.of_nat (length seg)))
               seg
               (repeat Byte.x00
                       (Z.to_nat (pad_len (Z.of_nat (length seg))))).
Proof. reflexivity. Qed.

Lemma cflag_code_range (cflag : CFlag) : 0 <= cflag_code cflag < 4.
Proof. destruct cflag; simpl; lia. Qed.

Lemma chunk_well_sized (cflag : CFlag) (seg : list byte) :
  Z.of_nat (length seg) < 2 ^ 30 ->
  well_sized (EncodeLRec (cflag_code cflag) (Z.of_nat (length seg)))
             seg
             (repeat Byte.x00
                     (Z.to_nat (pad_len (Z.of_nat (length seg))))).
Proof.
  intros Hlen.
  pose proof (cflag_code_range cflag) as Hc.
  pose proof (pad_len_range (Z.of_nat (length seg))) as Hpad.
  unfold well_sized.
  rewrite DecodeLength_EncodeLRec, repeat_length by lia.
  split; [apply EncodeLRec_u32; lia|]. lia.
Qed.

(** The reader's turn over a chunk the writer emitted. *)
Lemma ReadLoop_written_chunk (fuel : nat) (cflag : CFlag)
      (seg : list byte) (rest : Stream) (acc : list byte) :
  Z.of_nat (length seg) < 2 ^ 30 ->
  ReadLoop (S fuel) (chunk (cflag, seg) ++ rest) acc
  = match cflag with
    | COMPLETE | END => Some (Found (acc ++ seg), rest)
    | START | MIDDLE => ReadLoop fuel rest (acc ++ seg)
    end.
Proof.
  intros Hlen.
  rewrite chunk_wire, ReadLoop_chunk by (apply chunk_well_sized; exact Hlen).
  pose proof (cflag_code_range cflag) as Hc.
  rewrite DecodeFlag_EncodeLRec by lia.
  destruct cflag; reflexivity.
Qed.

Lemma ReadLoop_flag_rest (segs : list (list byte)) :
  segs <> [] -> Forall short segs ->
  forall (rest : Stream) (acc : list byte),
    ReadLoop (length segs) (flat_map chunk (flag_rest segs) ++ rest) acc
    = Some (Found (acc ++ concat segs), rest).
Proof.
  induction segs as [|seg segs IH]; intros Hne Hshort rest acc;
    [contradiction|].
  inversion Hshort as [|? ? Hseg Hsegs]; subst.
  destruct segs as [|seg' segs].
  - cbn [flag_rest flat_map concat length]. rewrite !app_nil_r.
    rewrite ReadLoop_written_chunk by exact Hseg. reflexivity.
  - change (flag_rest (seg :: seg' :: segs))
      with ((MIDDLE, seg) :: flag_rest (seg' :: segs)).
    cbn [flat_map]. rewrite <- app_assoc.
    change (length (seg :: seg' :: segs)) with (S (length (seg' :: segs))).
    rewrite ReadLoop_written_chunk by exact Hseg.
    rewrite IH by (discriminate || assumption).
    cbn [concat]. rewrite <- !app_assoc. reflexivity.
Qed.

Lemma ReadLoop_emit (segs : list (list byte)) :
  segs <> [] -> Forall short segs ->
  forall (rest : Stream) (acc : list byte),
    ReadLoop (length segs) (emit segs ++ rest) acc
    = Some (Found (acc ++ concat segs), rest).
Proof.
  intros Hne Hshort rest acc. unfold emit.
  destruct segs as [|seg segs]; [contradiction|].
  inversion Hshort as [|? ? Hseg Hsegs]; subst.
  destruct segs as [|seg' segs].
  - cbn [flag_segments flat_map concat length]. rewrite !app_nil_r.
    rewrite ReadLoop_written_chunk by exact Hseg. reflexivity.
  - change (flag_segments (seg :: seg' :: segs))
      with ((START, seg) :: flag_rest (seg' :: segs)).
    cbn [flat_map]. rewrite <- app_assoc.
    change (length (seg :: seg' :: segs)) with (S (length (seg' :: segs))).
    rewrite ReadLoop_written_chunk by exact Hseg.
    rewrite ReadLoop_flag_rest by (discriminate || assumption).
    cbn [concat]. rewrite <- !app_assoc. reflexivity.
Qed.

(** The segments of a payload: at least one, and together the
    payload. *)
Lemma segments_nonempty (buf : list byte) : segments buf <> [].
Proof.
  destruct buf as [|x rest]; cbn [segments]; [discriminate|].
  destruct (at_magic (x :: rest)); [discriminate|].
  destruct (segments rest); discriminate.
Qed.

Lemma segments_concat (buf : list byte) : concat (segments buf) = buf.
Proof.
  induction buf as [|x rest IH]; [reflexivity|].
  cbn [segments].
  destruct (at_magic (x :: rest)).
  - cbn [concat app]. rewrite IH. reflexivity.
  - pose proof (segments_nonempty rest) as Hne.
    destruct (segments rest) as [|seg segs]; [contradiction|].
    cbn [concat] in IH |- *. rewrite <- IH. reflexivity.
Qed.

Lemma concat_short (segs : list (list byte)) :
  short (concat segs) -> Forall short segs.
Proof.
  unfold short.
  induction segs as [|seg segs IH]; intros Hlen; constructor;
    cbn [concat] in Hlen; rewrite length_app in Hlen.
  - lia.
  - apply IH. lia.
Qed.

Lemma segments_short (buf : list byte) :
  short buf -> Forall short (segments buf).
Proof.
  intros Hlen. apply concat_short. rewrite segments_concat. exact Hlen.
Qed.

End WriterChunks.

(** * The segments of a payload *)

Section Segments.

Import RecordIOWriter.

Lemma at_magic_true (buf : list byte) :
  at_magic buf = true <-> firstn 4 buf = magic.
Proof.
  unfold at_magic.
  destruct (list_eq_dec Byte.byte_eq_dec (firstn 4 buf) magic);
    split; congruence.
Qed.

Lemma at_magic_prefix (seg more : list byte) :
  at_magic seg = true -> at_magic (seg ++ more) = true.
Proof.
  rewrite !at_magic_true. intros Hseg.
  assert (Hlen : (4 <= length seg)%nat).
  { pose proof (length_firstn 4 seg) as Hmin.
    rewrite Hseg, length_magic in Hmin. lia. }
  rewrite firstn_app. replace (4 - length seg)%nat with 0%nat by lia.
  rewrite firstn_O, app_nil_r. exact Hseg.
Qed.

Lemma at_magic_short (buf : list byte) :
  (length buf < 4)%nat -> at_magic buf = false.
Proof.
  intros Hlt. destruct (at_magic buf) eqn:Hat; [|reflexivity].
  apply at_magic_true in Hat.
  pose proof (length_firstn 4 buf) as Hmin.
  rewrite Hat, length_magic in Hmin. lia.
Qed.

(** One segment more than there are occurrences of the magic
    sequence. *)
Lemma segments_count (buf : list byte) :
  length (segments buf) = S (count_magic buf).
Proof.
  induction buf as [|x rest IH]; [reflexivity|].
  cbn [segments count_magic].
  destruct (at_magic (x :: rest)).
  - cbn [length]. rewrite IH. reflexivity.
  - destruct (segments rest) as [|seg segs]; [discriminate|].
    cbn [length] in IH |- *. rewrite IH. reflexivity.
Qed.

(** No segment holds the magic sequence. *)
Lemma segments_no_magic (buf : list byte) :
  Forall (fun seg => has_magic seg = false) (segments buf).
Proof.
  induction buf as [|x rest IH]; [repeat constructor|].
  cbn [segments].
  destruct (at_magic (x :: rest)) eqn:Hat.
  - constructor; [|exact IH].
    cbn [has_magic]. rewrite at_magic_short by (simpl; lia). reflexivity.
  - pose proof (segments_concat rest) as Hcat.
    pose proof (segments_nonempty rest) as Hne.
    destruct (segments rest) as [|seg segs]; [contradiction|].
    apply Forall_cons_iff in IH as [Hseg Hsegs].
    constructor; [|exact Hsegs].
    cbn [has_magic]. rewrite Hseg, orb_false_r.
    destruct (at_magic (x :: seg)) eqn:Hat'; [|reflexivity].
    apply (at_magic_prefix (x :: seg) (concat segs)) in Hat'.
    cbn [concat] in Hcat. cbn [app] in Hat'.
    rewrite Hcat in Hat'. congruence.
Qed.

(** The counter goes up by the number of occurrences. *)
Lemma WriteRecord_counts (w w' : t) (buf : list byte) :
  WriteRecord w buf = Ok w' ->
  except_counter_ w'
  = u32 (except_counter_ w + Z.of_nat (count_magic buf)).
Proof.
  unfold WriteRecord, CHECK.
  destruct (_ <? _); [|discriminate].
  intros Hok. injection Hok as <-. cbn [except_counter_].
  rewrite segments_count. f_equal. f_equal. lia.
Qed.

End Segments.

(** * Writing, then reading *)

Section RoundTrip.

Import RecordIOWriter RecordIOReader.

Lemma WriteRecord_accepts (w : RecordIOWriter.t) (buf : list byte) :
  short buf ->
  WriteRecord w buf
  = Ok {| RecordIOWriter.stream_ :=
            RecordIOWriter.stream_ w ++ emit (segments buf);
          except_counter_ :=
            u32 (except_counter_ w
                 + Z.of_nat (length (segments buf) - 1)) |}.
Proof.
  unfold short. intros Hlen. unfold WriteRecord, CHECK.
  destruct (Z.ltb_spec (Z.of_nat (length buf)) (2 ^ 30)); [reflexivity|lia].
Qed.

(** The reader undoes the framing of any segmentation: whatever the
    cuts, it returns the segments put together. *)
Lemma ReadRecord_emit (segs : list (list byte)) (rest : Stream) (e : bool) :
  segs <> [] -> short (concat segs) ->
  ReadRecord {| RecordIOReader.stream_ := emit segs ++ rest;
                end_of_stream_ := e |}
  = (Found (concat segs),
     {| RecordIOReader.stream_ := rest; end_of_stream_ := e |}).
Proof.
  intros Hne Hlen.
  rewrite (ReadRecord_Found (length segs) _ (concat segs) rest);
    [reflexivity|].
  cbn [RecordIOReader.stream_].
  rewrite ReadLoop_emit by (exact Hne || apply concat_short; exact Hlen).
  reflexivity.
Qed.

(** The record a call of [WriteRecord] appended is the next record a
    reader at that place of the stream returns, whatever follows. *)
Lemma ReadRecord_written (buf : list byte) (rest : Stream) (e : bool) :
  short buf ->
  ReadRecord {| RecordIOReader.stream_ := emit (segments buf) ++ rest;
                end_of_stream_ := e |}
  = (Found buf,
     {| RecordIOReader.stream_ := rest; end_of_stream_ := e |}).
Proof.
  intros Hlen.
  rewrite ReadRecord_emit
    by (apply segments_nonempty || rewrite segments_concat; exact Hlen).
  rewrite segments_concat. reflexivity.
Qed.

(** The empty record: one COMPLETE chunk of magic and a zero header. *)
Lemma WriteRecord_empty :
  WriteRecord (RecordIOWriter.init []) []
  = Ok {| RecordIOWriter.stream_ :=
            [Byte.x0a; Byte.x23; Byte.xd7; Byte.x3e;
             Byte.x00; Byte.x00; Byte.x00; Byte.x00];
          except_counter_ := 0 |}.
Proof. reflexivity. Qed.

End RoundTrip.

(** C1. Round trip: a payload of fewer than 2^30 bytes written by
    [WriteRecord] of a new writer is what [ReadRecord] of a new reader on
    the written stream returns, with [found = true], byte for byte and
    wherever the magic sequence lies in the payload. *)
Theorem WriteRecord_ReadRecord (buf : list byte) :
  Z.of_nat (length buf) < 2 ^ 30 ->
  exists (w0 w : RecordIOWriter.t) (r : RecordIOReader.t),
    RecordIOWriter.new 4 [] = Ok w0
    /\ RecordIOWriter.WriteRecord w0 buf = Ok w
    /\ RecordIOReader.new 4 (RecordIOWriter.stream_ w) = Ok r
    /\ RecordIOReader.ReadRecord r
       = (RecordIOReader.Found buf, RecordIOReader.init [])
    /\ RecordIOReader.found (fst (RecordIOReader.ReadRecord r)) = Some true.
Proof.
  intros Hlen.
  eexists _, _, _.
  split; [apply Writer_new_4|].
  split; [apply WriteRecord_accepts; exact Hlen|].
  split; [apply Reader_new_4|].
  cbn [RecordIOWriter.stream_ RecordIOWriter.init app].
  unfold RecordIOReader.init.
  rewrite <- (app_nil_r (RecordIOWriter.emit _)).
  rewrite ReadRecord_written by exact Hlen.
  split; reflexivity.
Qed.

Lemma WriteRecord_ReadRecord_witness :
  let buf := [Byte.x0a; Byte.x23; Byte.xd7; Byte.x3e; Byte.x01;
              Byte.x0a; Byte.x23; Byte.xd7; Byte.x3e;
              Byte.x0a; Byte.x23; Byte.xd7; Byte.x3e] in
  exists (w0 w : RecordIOWriter.t) (r : RecordIOReader.t),
    RecordIOWriter.new 4 [] = Ok w0
    /\ RecordIOWriter.WriteRecord w0 buf = Ok w
    /\ RecordIOReader.new 4 (RecordIOWriter.stream_ w) = Ok r
    /\ RecordIOReader.ReadRecord r
       = (RecordIOReader.Found buf, RecordIOReader.init [])
    /\ RecordIOReader.found (fst (RecordIOReader.ReadRecord r)) = Some true.
Proof.
  intros buf. apply (WriteRecord_ReadRecord buf). reflexivity.
Defined.

(** C3. The magic number is the constant 0x3ed7230a, a 32-bit value whose
    four bytes in the stream are 0a 23 d7 3e, and every chunk the writer
    emits, whatever its flag and payload, begins with these four bytes. *)
Theorem kMagic_constant :
  RecordIOWriter.kMagic = 0x3ed7230a
  /\ is_u32 RecordIOWriter.kMagic
  /\ word_bytes RecordIOWriter.kMagic
     = [Byte.x0a; Byte.x23; Byte.xd7; Byte.x3e]
  /\ (forall (cflag : CFlag) (seg : list byte),
         firstn 4 (RecordIOWriter.chunk (cflag, seg))
         = word_bytes RecordIOWriter.kMagic).
Proof.
  split; [reflexivity|].
  split; [unfold is_u32, RecordIOWriter.kMagic; lia|].
  split; [reflexivity|].
  intros cflag seg. reflexivity.
Qed.

(** * The alignment of the writer *)

Section WriterInvariants.

Import RecordIOWriter.

Lemma length_chunk (cflag : CFlag) (seg : list byte) :
  Z.of_nat (length (chunk (cflag, seg)))
  = 4 + 4 + Z.of_nat (length seg) + pad_len (Z.of_nat (length seg)).
Proof.
  unfold chunk.
  rewrite !length_app, length_magic, length_word_bytes, repeat_length.
  pose proof (pad_len_range (Z.of_nat (length seg))). lia.
Qed.

Lemma chunk_aligned (fs : CFlag * list byte) :
  Z.of_nat (length (chunk fs)) mod 4 = 0.
Proof.
  destruct fs as [cflag seg]. rewrite length_chunk.
  replace (4 + 4 + Z.of_nat (length seg) + pad_len (Z.of_nat (length seg)))
    with (Z.of_nat (length seg) + pad_len (Z.of_nat (length seg)) + 2 * 4)
    by lia.
  rewrite Z.mod_add by lia. apply pad_len_aligns.
Qed.

Lemma app_aligned (a b : list byte) :
  Z.of_nat (length a) mod 4 = 0 -> Z.of_nat (length b) mod 4 = 0 ->
  Z.of_nat (length (a ++ b)) mod 4 = 0.
Proof.
  intros Ha Hb. rewrite length_app, Nat2Z.inj_add.
  rewrite Z.add_mod, Ha, Hb by lia. reflexivity.
Qed.

Lemma emit_aligned (segs : list (list byte)) :
  Z.of_nat (length (emit segs)) mod 4 = 0.
Proof.
  unfold emit.
  induction (flag_segments segs) as [|fs fss IH]; [reflexivity|].
  cbn [flat_map]. apply app_aligned; [apply chunk_aligned | exact IH].
Qed.

Lemma WriteRecord_keeps_aligned (w w' : t) (buf : list byte) :
  Z.of_nat (length (stream_ w)) mod 4 = 0 ->
  WriteRecord w buf = Ok w' ->
  Z.of_nat (length (stream_ w')) mod 4 = 0.
Proof.
  intros Hw. unfold WriteRecord, CHECK.
  destruct (_ <? _); [|discriminate].
  intros Hok. injection Hok as <-. cbn [stream_].
  apply app_aligned; [exact Hw | apply emit_aligned].
Qed.

Lemma WriteRecords_keep_aligned (bufs : list (list byte)) (w : t) :
  Z.of_nat (length (stream_ w)) mod 4 = 0 ->
  Z.of_nat (length (stream_ (WriteRecords w bufs))) mod 4 = 0.
Proof.
  revert w. unfold WriteRecords.
  induction bufs as [|buf bufs IH]; intros w Hw; [exact Hw|].
  cbn [fold_left]. apply IH.
  destruct (WriteRecord w buf) as [w'|msg] eqn:Hwr; [|exact Hw].
  exact (WriteRecord_keeps_aligned w w' buf Hw Hwr).
Qed.

End WriterInvariants.

(** C5. Alignment: after every call of [WriteRecord] on a writer that
    started on an empty stream, the number of bytes written so far is a
    multiple of 4; each chunk is 4 bytes of magic, 4 bytes of header, the
    payload and its pad, a multiple of 4 together. *)
Theorem WriteRecord_aligned :
  (forall bufs : list (list byte),
      Z.of_nat
        (length
           (RecordIOWriter.stream_
              (RecordIOWriter.WriteRecords (RecordIOWriter.init []) bufs)))
      mod 4 = 0)
  /\ (forall (cflag : CFlag) (seg : list byte),
         Z.of_nat (length (RecordIOWriter.chunk (cflag, seg)))
         = 4 + 4 + Z.of_nat (length seg) + pad_len (Z.of_nat (length seg))
         /\ Z.of_nat (length (RecordIOWriter.chunk (cflag, seg))) mod 4 = 0).
Proof.
  split.
  - intros bufs. apply WriteRecords_keep_aligned. reflexivity.
  - intros cflag seg. split; [apply length_chunk | apply chunk_aligned].
Qed.

(** * The end of the stream *)

Section EndOfStream.

Import RecordIOWriter RecordIOReader.

Lemma length_wire_chunk (rec : Z) (payload pad : list byte) :
  (8 <= length (wire_chunk rec payload pad))%nat.
Proof.
  unfold wire_chunk.
  rewrite !length_app, length_magic, length_word_bytes. lia.
Qed.

(** The loop reports the end of the stream on whole START and MIDDLE
    chunks followed by nothing. *)
Lemma open_run_EndOfStream (s : Stream) :
  open_run s ->
  forall (fuel : nat) (acc : list byte),
    (length s < fuel)%nat -> ReadLoop fuel s acc = Some (EndOfStream, []).
Proof.
  induction 1 as [|rec payload pad rest Hsized Hflag Hrest IH];
    intros fuel acc Hfuel; (destruct fuel as [|fuel]; [lia|]).
  - reflexivity.
  - rewrite ReadLoop_chunk by exact Hsized.
    rewrite length_app in Hfuel.
    pose proof (length_wire_chunk rec payload pad).
    destruct Hflag as [-> | ->]; cbn [cflag_code Z.eqb orb]; apply IH; lia.
Qed.

(** ... and on nothing else. *)
Lemma EndOfStream_open_run (fuel : nat) :
  forall (s : Stream) (acc : list byte) (s' : Stream),
    ReadLoop fuel s acc = Some (EndOfStream, s') -> open_run s.
Proof.
  induction fuel as [|fuel IH]; intros s acc s' Hrun; [discriminate|].
  cbn [ReadLoop] in Hrun. unfold Read in Hrun.
  destruct (firstn 4 s) as [|m0 mg] eqn:Hmg.
  { destruct s; [constructor | discriminate]. }
  destruct (list_eq_dec Byte.byte_eq_dec _ _) as [Hmagic|]; [|discriminate].
  remember (skipn 4 s) as s1 eqn:Hs1.
  remember (firstn 4 s1) as hd eqn:Hhd.
  remember (skipn 4 s1) as s2 eqn:Hs2.
  destruct (Nat.eqb_spec (length hd) 4) as [Hlhd|]; [|discriminate].
  remember (bytes_word hd) as rec eqn:Hrec.
  remember (firstn (Z.to_nat (DecodeLength rec)) s2) as payload eqn:Hpl.
  remember (skipn (Z.to_nat (DecodeLength rec)) s2) as s3 eqn:Hs3.
  destruct (Nat.eqb_spec (length payload) (Z.to_nat (DecodeLength rec)))
    as [Hlpl|]; [|discriminate].
  remember (firstn (Z.to_nat (pad_len (DecodeLength rec))) s3)
    as pad eqn:Hpad.
  remember (skipn (Z.to_nat (pad_len (DecodeLength rec))) s3)
    as s4 eqn:Hs4.
  destruct (Nat.eqb_spec (length pad)
                         (Z.to_nat (pad_len (DecodeLength rec))))
    as [Hlpad|]; [|discriminate].
  destruct (_ || _) eqn:Hflag; [discriminate|].
  apply IH in Hrun.
  assert (Hs : s = wire_chunk rec payload pad ++ s4).
  { unfold wire_chunk. rewrite <- !app_assoc.
    rewrite <- Hmagic, <- Hmg, Hrec, (word_bytes_word hd Hlhd).
    rewrite Hs4, Hpad, firstn_skipn.
    rewrite Hs3, Hpl, firstn_skipn.
    rewrite Hs2, Hhd, firstn_skipn.
    rewrite Hs1, firstn_skipn. reflexivity. }
  rewrite Hs. apply open_run_chunk; [|  | exact Hrun].
  - pose proof (DecodeLength_range rec) as Hlen.
    pose proof (pad_len_range (DecodeLength rec)).
    unfold well_sized. rewrite Hrec at 1.
    split; [apply bytes_word_u32; exact Hlhd|]. lia.
  - pose proof (DecodeFlag_range rec) as Hfl.
    apply orb_false_elim in Hflag. destruct Hflag as [H0 H3].
    apply Z.eqb_neq in H0, H3. cbn [cflag_code] in *. lia.
Qed.

End EndOfStream.

(** * Header packing on arbitrary arguments *)

Section HeaderPackingAny.

Import RecordIOWriter.

Lemma u32_bits (z i : Z) :
  0 <= i -> Z.testbit (u32 z) i = (i <? 32) && Z.testbit z i.
Proof.
  intros Hi. unfold u32.
  destruct (Z.ltb_spec i 32).
  - rewrite Z.mod_pow2_bits_low by lia. reflexivity.
  - rewrite Z.mod_pow2_bits_high by lia. reflexivity.
Qed.

Lemma is_u32_bits (z i : Z) :
  is_u32 z -> 32 <= i -> Z.testbit z i = false.
Proof.
  unfold is_u32. intros Hz Hi.
  rewrite <- (Z.mod_small z (2 ^ 32)) by lia.
  apply Z.mod_pow2_bits_high. lia.
Qed.

Lemma EncodeLRec_bits (cflag length i : Z) :
  0 <= i ->
  Z.testbit (EncodeLRec cflag length) i
  = ((30 <=? i) && (i <? 32) && Z.testbit cflag (i - 30))
    || Z.testbit length i.
Proof.
  intros Hi. unfold EncodeLRec.
  rewrite Z.lor_spec, u32_bits by lia.
  destruct (Z.leb_spec 30 i).
  - rewrite Z.shiftl_spec by lia. rewrite andb_true_l. reflexivity.
  - rewrite Z.shiftl_spec_low by lia. rewrite andb_false_r. reflexivity.
Qed.

End HeaderPackingAny.

(** X1. [EncodeLRec] on any two 32-bit arguments, in range or not: the
    result is a 32-bit word; its length field is the length modulo 2^30,
    and its flag field is the low two bits of the flag or-ed with the
    bits 30 and 31 of the length. A flag above 3 is cut to two bits and
    a length of 2^30 or more changes the flag, without any error. *)
Theorem EncodeLRec_any (cflag length : Z) :
  is_u32 cflag -> is_u32 length ->
  is_u32 (RecordIOWriter.EncodeLRec cflag length)
  /\ RecordIOWriter.DecodeLength (RecordIOWriter.EncodeLRec cflag length)
     = length mod 2 ^ 30
  /\ RecordIOWriter.DecodeFlag (RecordIOWriter.EncodeLRec cflag length)
     = Z.lor (cflag mod 4) (length / 2 ^ 30).
Proof.
  intros Hc Hl.
  split; [|split].
  - assert (Hmod : RecordIOWriter.EncodeLRec cflag length
                   = RecordIOWriter.EncodeLRec cflag length mod 2 ^ 32).
    { apply Z.bits_inj'. intros i Hi.
      destruct (Z.ltb_spec i 32).
      - rewrite Z.mod_pow2_bits_low by lia. reflexivity.
      - rewrite Z.mod_pow2_bits_high by lia.
        rewrite EncodeLRec_bits by lia.
        rewrite (is_u32_bits length i) by (assumption || lia).
        destruct (Z.ltb_spec i 32); [lia|].
        rewrite andb_false_r. reflexivity. }
    unfold is_u32. rewrite Hmod. apply Z.mod_pos_bound. lia.
  - rewrite DecodeLength_bits.
    apply Z.bits_inj'. intros i Hi.
    destruct (Z.ltb_spec i 30).
    + rewrite !Z.mod_pow2_bits_low by lia.
      rewrite EncodeLRec_bits by lia.
      destruct (Z.leb_spec 30 i); [lia|]. reflexivity.
    + rewrite !Z.mod_pow2_bits_high by lia. reflexivity.
  - unfold RecordIOWriter.DecodeFlag.
    rewrite flag_mask, Z.land_ones by lia.
    change 4 with (2 ^ 2).
    rewrite <- Z.shiftr_div_pow2 by lia.
    apply Z.bits_inj'. intros i Hi.
    rewrite Z.lor_spec, (Z.shiftr_spec length) by lia.
    destruct (Z.ltb_spec i 2).
    + rewrite !Z.mod_pow2_bits_low by lia.
      rewrite Z.shiftr_spec, EncodeLRec_bits by lia.
      destruct (Z.leb_spec 30 (i + 30)); [|lia].
      destruct (Z.ltb_spec (i + 30) 32); [|lia].
      replace (i + 30 - 30) with i by lia. reflexivity.
    + rewrite !Z.mod_pow2_bits_high by lia.
      rewrite (is_u32_bits length (i + 30)) by (assumption || lia).
      reflexivity.
Qed.

Lemma EncodeLRec_any_witness :
  RecordIOWriter.DecodeLength (RecordIOWriter.EncodeLRec 5 (2 ^ 31 + 7)) = 7
  /\ RecordIOWriter.DecodeFlag (RecordIOWriter.EncodeLRec 5 (2 ^ 31 + 7)) = 3.
Proof.
  assert (Hc : is_u32 5) by (unfold is_u32; lia).
  assert (Hl : is_u32 (2 ^ 31 + 7)) by (unfold is_u32; lia).
  pose proof (EncodeLRec_any 5 (2 ^ 31 + 7) Hc Hl) as (_ & Hlen & Hflag).
  split; [exact Hlen | exact Hflag].
Defined.

(** * The string overload of [WriteRecord] *)

Section StringOverload.

Import RecordIOWriter RecordIOReader.

Lemma length_list_byte_of_string (data : string) :
  length (list_byte_of_string data) = String.length data.
Proof.
  unfold list_byte_of_string. rewrite length_map.
  induction data as [|c data IH]; [reflexivity|].
  cbn [list_ascii_of_string length String.length]. rewrite IH. reflexivity.
Qed.

End StringOverload.

(** X2. The string overload of [WriteRecord] round trips: a string of
    fewer than 2^30 characters, zero characters included, written by a
    new writer is the record a new reader returns from the written
    stream, character for character and with the same length. *)
Theorem WriteRecordString_ReadRecord (data : string) :
  Z.of_nat (String.length data) < 2 ^ 30 ->
  exists (w : RecordIOWriter.t) (out_rec : list byte),
    RecordIOWriter.WriteRecordString (RecordIOWriter.init []) data = Ok w
    /\ RecordIOReader.ReadRecord
         (RecordIOReader.init (RecordIOWriter.stream_ w))
       = (RecordIOReader.Found out_rec, RecordIOReader.init [])
    /\ string_of_list_byte out_rec = data
    /\ length out_rec = String.length data.
Proof.
  intros Hlen.
  assert (Hshort : RecordIOWriter.short (list_byte_of_string data)).
  { unfold RecordIOWriter.short.
    rewrite length_list_byte_of_string. exact Hlen. }
  eexists _, (list_byte_of_string data).
  split; [apply WriteRecord_accepts; exact Hshort|].
  cbn [RecordIOWriter.stream_ RecordIOWriter.init app].
  unfold RecordIOReader.init.
  rewrite <- (app_nil_r (RecordIOWriter.emit _)).
  rewrite ReadRecord_written by exact Hshort.
  split; [reflexivity|].
  split; [apply string_of_list_byte_of_string
         | apply length_list_byte_of_string].
Qed.

Lemma WriteRecordString_ReadRecord_witness :
  exists (w : RecordIOWriter.t) (out_rec : list byte),
    RecordIOWriter.WriteRecordString
      (RecordIOWriter.init [])
      (String "a"%char (String "000"%char (String "b"%char EmptyString))) = Ok w
    /\ RecordIOReader.ReadRecord
         (RecordIOReader.init (RecordIOWriter.stream_ w))
       = (RecordIOReader.Found out_rec, RecordIOReader.init [])
    /\ string_of_list_byte out_rec
       = String "a"%char (String "000"%char (String "b"%char EmptyString))
    /\ length out_rec
       = String.length (String "a"%char (String "000"%char (String "b"%char EmptyString))).
Proof.
  apply (WriteRecordString_ReadRecord
           (String "a"%char (String "000"%char (String "b"%char EmptyString)))).
  reflexivity.
Defined.

(** * Sequences of records *)

Section Sequences.

Import RecordIOWriter RecordIOReader.

Lemma WriteRecords_stream (bufs : list (list byte)) :
  Forall short bufs ->
  forall w : RecordIOWriter.t,
    RecordIOWriter.stream_ (WriteRecords w bufs)
    = RecordIOWriter.stream_ w
      ++ flat_map (fun buf => emit (segments buf)) bufs.
Proof.
  unfold WriteRecords.
  induction bufs as [|buf bufs IH]; intros Hshort w.
  - cbn [fold_left flat_map]. rewrite app_nil_r. reflexivity.
  - apply Forall_cons_iff in Hshort as [Hbuf Hbufs].
    cbn [fold_left flat_map].
    rewrite (WriteRecord_accepts w buf Hbuf).
    rewrite IH by exact Hbufs.
    cbn [RecordIOWriter.stream_]. rewrite app_assoc. reflexivity.
Qed.

Lemma ReadRecord_at_end (e : bool) :
  ReadRecord {| RecordIOReader.stream_ := []; end_of_stream_ := e |}
  = (EndOfStream,
     {| RecordIOReader.stream_ := []; end_of_stream_ := true |}).
Proof. reflexivity. Qed.

Lemma ReadRecords_at_end (n : nat) (e : bool) :
  ReadRecords (S n)
              {| RecordIOReader.stream_ := []; end_of_stream_ := e |}
  = (repeat EndOfStream (S n),
     {| RecordIOReader.stream_ := []; end_of_stream_ := true |}).
Proof.
  revert e. induction n as [|n IH]; intros e.
  - reflexivity.
  - change (ReadRecords (S (S n)) ?r)
      with (let (res, r') := ReadRecord r in
            let (ress, r'') := ReadRecords (S n) r' in
            (res :: ress, r'')).
    rewrite ReadRecord_at_end, IH. reflexivity.
Qed.

Lemma ReadRecords_written (bufs : list (list byte)) :
  Forall short bufs ->
  forall e : bool,
    ReadRecords (S (length bufs))
                {| RecordIOReader.stream_ :=
                     flat_map (fun buf => emit (segments buf)) bufs;
                   end_of_stream_ := e |}
    = (map Found bufs ++ [EndOfStream],
       {| RecordIOReader.stream_ := []; end_of_stream_ := true |}).
Proof.
  induction bufs as [|buf bufs IH]; intros Hshort e.
  - reflexivity.
  - apply Forall_cons_iff in Hshort as [Hbuf Hbufs].
    change (ReadRecords (S (length (buf :: bufs))) ?r)
      with (let (res, r') := ReadRecord r in
            let (ress, r'') := ReadRecords (S (length bufs)) r' in
            (res :: ress, r'')).
    cbn [flat_map].
    rewrite ReadRecord_written by exact Hbuf.
    rewrite IH by exact Hbufs. reflexivity.
Qed.

(** A call that found the end of the stream has consumed everything and
    set the latch. *)
Lemma ReadRecord_EndOfStream_state (r : RecordIOReader.t) :
  fst (ReadRecord r) = EndOfStream ->
  ReadRecord r
  = (EndOfStream,
     {| RecordIOReader.stream_ := []; end_of_stream_ := true |}).
Proof.
  intros Hres.
  destruct (ReadRecord_loop r) as [s' Hloop]. rewrite Hres in Hloop.
  apply EndOfStream_open_run in Hloop.
  apply (ReadRecord_EndOfStream (S (length (RecordIOReader.stream_ r)))).
  apply open_run_EndOfStream; [exact Hloop | lia].
Qed.

End Sequences.

(** X3. Order and clean end: records of fewer than 2^30 bytes each,
    written one after the other by a new writer, come back from a new
    reader on the written stream one per call of [ReadRecord], in the
    order they were written and byte for byte; the call after the last
    record returns [found = false], with the stream consumed to its end
    and the end-of-stream latch set. *)
Theorem WriteRecords_ReadRecords (bufs : list (list byte)) :
  Forall RecordIOWriter.short bufs ->
  RecordIOReader.ReadRecords
    (S (length bufs))
    (RecordIOReader.init
       (RecordIOWriter.stream_
          (RecordIOWriter.WriteRecords (RecordIOWriter.init []) bufs)))
  = (map RecordIOReader.Found bufs ++ [RecordIOReader.EndOfStream],
     {| RecordIOReader.stream_ := [];
        RecordIOReader.end_of_stream_ := true |}).
Proof.
  intros Hshort.
  rewrite WriteRecords_stream by exact Hshort.
  cbn [RecordIOWriter.stream_ RecordIOWriter.init app].
  apply ReadRecords_written. exact Hshort.
Qed.

Lemma WriteRecords_ReadRecords_witness :
  RecordIOReader.ReadRecords
    4
    (RecordIOReader.init
       (RecordIOWriter.stream_
          (RecordIOWriter.WriteRecords
             (RecordIOWriter.init [])
             [[Byte.x61; Byte.x62];
              [];
              [Byte.x0a; Byte.x23; Byte.xd7; Byte.x3e; Byte.x63]])))
  = ([RecordIOReader.Found [Byte.x61; Byte.x62];
      RecordIOReader.Found [];
      RecordIOReader.Found [Byte.x0a; Byte.x23; Byte.xd7; Byte.x3e; Byte.x63];
      RecordIOReader.EndOfStream],
     {| RecordIOReader.stream_ := [];
        RecordIOReader.end_of_stream_ := true |}).
Proof.
  apply (WriteRecords_ReadRecords
           [[Byte.x61; Byte.x62];
            [];
            [Byte.x0a; Byte.x23; Byte.xd7; Byte.x3e; Byte.x63]]).
  repeat constructor.
Defined.

(** X4. The end of the stream is final: a call of [ReadRecord] that
    returns [found = false] leaves a reader with nothing to read and the
    latch set, on which every further call returns [found = false]
    again and changes nothing. *)
Theorem ReadRecord_end_is_final (r : RecordIOReader.t) :
  RecordIOReader.found (fst (RecordIOReader.ReadRecord r)) = Some false ->
  RecordIOReader.ReadRecord r
  = (RecordIOReader.EndOfStream,
     {| RecordIOReader.stream_ := [];
        RecordIOReader.end_of_stream_ := true |})
  /\ (forall n : nat,
         RecordIOReader.ReadRecords n (snd (RecordIOReader.ReadRecord r))
         = (repeat RecordIOReader.EndOfStream n,
            {| RecordIOReader.stream_ := [];
               RecordIOReader.end_of_stream_ := true |})).
Proof.
  intros Hfound.
  assert (Hres : fst (RecordIOReader.ReadRecord r)
                 = RecordIOReader.EndOfStream).
  { destruct (fst (RecordIOReader.ReadRecord r)); try discriminate.
    reflexivity. }
  pose proof (ReadRecord_EndOfStream_state r Hres) as Hstate.
  split; [exact Hstate|].
  intros n. rewrite Hstate. cbn [snd].
  destruct n as [|n]; [reflexivity | apply ReadRecords_at_end].
Qed.

Lemma ReadRecord_end_is_final_witness :
  RecordIOReader.ReadRecords
    3
    (snd (RecordIOReader.ReadRecord
            (RecordIOReader.init
               [Byte.x0a; Byte.x23; Byte.xd7; Byte.x3e;
                Byte.x01; Byte.x00; Byte.x00; Byte.x40;
                Byte.x2a; Byte.x00; Byte.x00; Byte.x00])))
  = (repeat RecordIOReader.EndOfStream 3,
     {| RecordIOReader.stream_ := [];
        RecordIOReader.end_of_stream_ := true |}).
Proof.
  apply (ReadRecord_end_is_final
           (RecordIOReader.init
              [Byte.x0a; Byte.x23; Byte.xd7; Byte.x3e;
               Byte.x01; Byte.x00; Byte.x00; Byte.x40;
               Byte.x2a; Byte.x00; Byte.x00; Byte.x00])).
  vm_compute. reflexivity.
Defined.

(** * What a successful read consumes *)

Section Consumption.

Import RecordIOWriter RecordIOReader.

(** A turn of the loop that does not fail has a whole chunk in front
    of it. *)
Lemma ReadLoop_Found_chunk (fuel : nat) (s : Stream) (acc rec : list byte)
      (s' : Stream) :
  ReadLoop (S fuel) s acc = Some (Found rec, s') ->
  exists (w : Z) (payload pad : list byte) (s4 : Stream),
    s = wire_chunk w payload pad ++ s4 /\ well_sized w payload pad.
Proof.
  intros Hrun.
  cbn [ReadLoop] in Hrun. unfold Read in Hrun.
  destruct (firstn 4 s) as [|m0 mg] eqn:Hmg; [discriminate|].
  destruct (list_eq_dec Byte.byte_eq_dec _ _) as [Hmagic|]; [|discriminate].
  remember (skipn 4 s) as s1 eqn:Hs1.
  remember (firstn 4 s1) as hd eqn:Hhd.
  remember (skipn 4 s1) as s2 eqn:Hs2.
  destruct (Nat.eqb_spec (length hd) 4) as [Hlhd|]; [|discriminate].
  remember (bytes_word hd) as w eqn:Hw.
  remember (firstn (Z.to_nat (DecodeLength w)) s2) as payload eqn:Hpl.
  remember (skipn (Z.to_nat (DecodeLength w)) s2) as s3 eqn:Hs3.
  destruct (Nat.eqb_spec (length payload) (Z.to_nat (DecodeLength w)))
    as [Hlpl|]; [|discriminate].
  remember (firstn (Z.to_nat (pad_len (DecodeLength w))) s3) as pad eqn:Hpad.
  remember (skipn (Z.to_nat (pad_len (DecodeLength w))) s3) as s4 eqn:Hs4.
  destruct (Nat.eqb_spec (length pad) (Z.to_nat (pad_len (DecodeLength w))))
    as [Hlpad|]; [|discriminate].
  exists w, payload, pad, s4. split.
  - unfold wire_chunk. rewrite <- !app_assoc.
    rewrite <- Hmagic, <- Hmg, Hw, (word_bytes_word hd Hlhd).
    rewrite Hs4, Hpad, firstn_skipn.
    rewrite Hs3, Hpl, firstn_skipn.
    rewrite Hs2, Hhd, firstn_skipn.
    rewrite Hs1, firstn_skipn. reflexivity.
  - pose proof (DecodeLength_range w) as Hlen.
    pose proof (pad_len_range (DecodeLength w)).
    unfold well_sized. rewrite Hw at 1.
    split; [apply bytes_word_u32; exact Hlhd|]. lia.
Qed.

Lemma wire_chunk_length (w : Z) (payload pad : list byte) :
  well_sized w payload pad ->
  (length (wire_chunk w payload pad) = 8 + length payload + length pad)%nat
  /\ Z.of_nat (length (wire_chunk w payload pad)) mod 4 = 0.
Proof.
  intros (_ & Hp & Hd).
  assert (Hlen : (length (wire_chunk w payload pad)
                  = 8 + length payload + length pad)%nat).
  { unfold wire_chunk.
    rewrite !length_app, length_magic, length_word_bytes. lia. }
  split; [exact Hlen|].
  rewrite Hlen.
  replace (Z.of_nat (8 + length payload + length pad))
    with (DecodeLength w + pad_len (DecodeLength w) + 2 * 4) by lia.
  rewrite Z.mod_add by lia. apply pad_len_aligns.
Qed.

Lemma ReadLoop_Found_consumed (fuel : nat) :
  forall (s : Stream) (acc rec : list byte) (s' : Stream),
    ReadLoop fuel s acc = Some (Found rec, s') ->
    exists consumed : list byte,
      s = consumed ++ s'
      /\ (8 <= length consumed)%nat
      /\ Z.of_nat (length consumed) mod 4 = 0
      /\ (length rec + 8 <= length acc + length consumed)%nat
      /\ (forall rest' : Stream,
             ReadLoop fuel (consumed ++ rest') acc
             = Some (Found rec, rest')).
Proof.
  induction fuel as [|fuel IH]; intros s acc rec s' Hrun; [discriminate|].
  destruct (ReadLoop_Found_chunk _ _ _ _ _ Hrun)
    as (w & payload & pad & s4 & Hs & Hsized).
  destruct (wire_chunk_length w payload pad Hsized) as [Hlen Hmod].
  subst s. rewrite ReadLoop_chunk in Hrun by exact Hsized.
  destruct ((DecodeFlag w =? cflag_code COMPLETE)
            || (DecodeFlag w =? cflag_code END)) eqn:Hfinal.
  - injection Hrun as <- <-.
    exists (wire_chunk w payload pad).
    split; [reflexivity|]. split; [lia|]. split; [exact Hmod|].
    split; [rewrite length_app; lia|].
    intros rest'. rewrite ReadLoop_chunk, Hfinal by exact Hsized.
    reflexivity.
  - destruct (IH _ _ _ _ Hrun) as (consumed & Hs4 & H8 & H4 & Hrec & Hloc).
    exists (wire_chunk w payload pad ++ consumed).
    split; [rewrite Hs4, app_assoc; reflexivity|].
    split; [rewrite length_app; lia|].
    split; [apply app_aligned; assumption|].
    split; [rewrite length_app in Hrec |- *; lia|].
    intros rest'.
    rewrite <- app_assoc, ReadLoop_chunk, Hfinal by exact Hsized.
    apply Hloc.
Qed.

End Consumption.

(** X5. A call of [ReadRecord] that returns a record has consumed, from
    the front of the stream and leaving the rest as it was, a run of
    whole chunks: at least 8 bytes, a multiple of 4 bytes, and at least
    8 bytes more than the record is long. The latch is left as it was,
    and the record depends on the consumed bytes only: whatever follows
    them in the stream, the call returns the same record and stops at
    the same place. *)
Theorem ReadRecord_Found_consumed
        (r r' : RecordIOReader.t) (out_rec : list byte) :
  RecordIOReader.ReadRecord r = (RecordIOReader.Found out_rec, r') ->
  exists consumed : list byte,
    RecordIOReader.stream_ r = consumed ++ RecordIOReader.stream_ r'
    /\ (8 <= length consumed)%nat
    /\ Z.of_nat (length consumed) mod 4 = 0
    /\ (length out_rec + 8 <= length consumed)%nat
    /\ RecordIOReader.end_of_stream_ r' = RecordIOReader.end_of_stream_ r
    /\ (forall (rest' : Stream) (e : bool),
           RecordIOReader.ReadRecord
             (RecordIOReader.mk (consumed ++ rest') e)
           = (RecordIOReader.Found out_rec, RecordIOReader.mk rest' e)).
Proof.
  intros Hread.
  destruct (ReadRecord_loop r) as [s' Hloop].
  rewrite Hread in Hloop. cbn [fst] in Hloop.
  rewrite (ReadRecord_Found _ r out_rec s' Hloop) in Hread.
  injection Hread as <-.
  destruct (ReadLoop_Found_consumed _ _ _ _ _ Hloop)
    as (consumed & Hs & H8 & H4 & Hrec & Hloc).
  exists consumed. cbn [RecordIOReader.stream_ RecordIOReader.end_of_stream_].
  split; [exact Hs|]. split; [exact H8|]. split; [exact H4|].
  split; [cbn [length] in Hrec; lia|]. split; [reflexivity|].
  intros rest' e.
  apply (ReadRecord_Found (S (length (RecordIOReader.stream_ r)))).
  apply Hloc.
Qed.

Lemma ReadRecord_Found_consumed_witness :
  exists consumed : list byte,
    [Byte.x0a; Byte.x23; Byte.xd7; Byte.x3e;
     Byte.x01; Byte.x00; Byte.x00; Byte.x00;
     Byte.x61; Byte.x00; Byte.x00; Byte.x00; Byte.xff]
    = consumed ++ [Byte.xff]
    /\ (8 <= length consumed)%nat
    /\ Z.of_nat (length consumed) mod 4 = 0
    /\ (length [Byte.x61] + 8 <= length consumed)%nat
    /\ false = false
    /\ (forall (rest' : Stream) (e : bool),
           RecordIOReader.ReadRecord
             (RecordIOReader.mk (consumed ++ rest') e)
           = (RecordIOReader.Found [Byte.x61], RecordIOReader.mk rest' e)).
Proof.
  apply (ReadRecord_Found_consumed
           (RecordIOReader.init
              [Byte.x0a; Byte.x23; Byte.xd7; Byte.x3e;
               Byte.x01; Byte.x00; Byte.x00; Byte.x00;
               Byte.x61; Byte.x00; Byte.x00; Byte.x00; Byte.xff])
           (RecordIOReader.mk [Byte.xff] false)
           [Byte.x61]).
  vm_compute. reflexivity.
Defined.

(** * Payloads without the magic sequence *)

Section PlainPayload.

Import RecordIOWriter.

Lemma segments_plain (buf : list byte) :
  has_magic buf = false -> segments buf = [buf].
Proof.
  induction buf as [|x rest IH]; intros Hplain; [reflexivity|].
  cbn [has_magic] in Hplain.
  apply orb_false_elim in Hplain as [Hat Hrest].
  cbn [segments]. rewrite Hat, (IH Hrest). reflexivity.
Qed.

Lemma EncodeLRec_COMPLETE (length : Z) :
  EncodeLRec (cflag_code COMPLETE) length = length.
Proof.
  unfold EncodeLRec. cbn [cflag_code].
  rewrite Z.shiftl_0_l. change (u32 0) with 0. apply Z.lor_0_l.
Qed.

End PlainPayload.

(** X6. A payload of fewer than 2^30 bytes in which the magic sequence
    does not occur is written as one chunk: the magic number, a header
    word equal to the payload length (flag 0), the payload, and zero
    bytes up to the next multiple of 4; the exception counter keeps its
    value. *)
Theorem WriteRecord_plain (w : RecordIOWriter.t) (buf : list byte) :
  Z.of_nat (length buf) < 2 ^ 30 ->
  RecordIOWriter.has_magic buf = false ->
  is_u32 (RecordIOWriter.except_counter_ w) ->
  RecordIOWriter.WriteRecord w buf
  = Ok {| RecordIOWriter.stream_ :=
            RecordIOWriter.stream_ w
              ++ word_bytes RecordIOWriter.kMagic
              ++ word_bytes (Z.of_nat (length buf))
              ++ buf
              ++ repeat Byte.x00
                        (Z.to_nat (pad_len (Z.of_nat (length buf))));
          RecordIOWriter.except_counter_ :=
            RecordIOWriter.except_counter_ w |}.
Proof.
  intros Hlen Hplain Hctr.
  rewrite WriteRecord_accepts by exact Hlen.
  rewrite (segments_plain buf Hplain).
  unfold RecordIOWriter.emit.
  cbn [RecordIOWriter.flag_segments flat_map RecordIOWriter.chunk length
       Nat.sub].
  rewrite EncodeLRec_COMPLETE, app_nil_r, Z.add_0_r.
  unfold u32. rewrite Z.mod_small by exact Hctr.
  reflexivity.
Qed.

Lemma WriteRecord_plain_witness :
  RecordIOWriter.WriteRecord
    (RecordIOWriter.init [])
    [Byte.x61; Byte.x62; Byte.x63; Byte.x64; Byte.x65]
  = Ok {| RecordIOWriter.stream_ :=
            [Byte.x0a; Byte.x23; Byte.xd7; Byte.x3e;
             Byte.x05; Byte.x00; Byte.x00; Byte.x00;
             Byte.x61; Byte.x62; Byte.x63; Byte.x64; Byte.x65;
             Byte.x00; Byte.x00; Byte.x00];
          RecordIOWriter.except_counter_ := 0 |}.
Proof.
  apply (WriteRecord_plain
           (RecordIOWriter.init [])
           [Byte.x61; Byte.x62; Byte.x63; Byte.x64; Byte.x65]).
  - reflexivity.
  - reflexivity.
  - unfold is_u32. simpl. lia.
Defined.
